(** * SafeList<T>: a std::list<T> behind one recursive pthread mutex

    Shallow embedding of [safelist.h].  The container is the pair of the
    inherited [list<T>] (its node sequence) and [safelist_mutex].  Every
    member function is a computation in a small state monad that also
    emits the events the calling thread performs: lock acquisitions and
    releases, and accesses to the inherited list.  The events are what
    the locking discipline is stated over. *)

From Stdlib Require Import List ZArith Bool Arith Lia.
Import ListNotations.

Set Implicit Arguments.

(** ** Requirements the template places on [T] *)

(** [T ret_val = NULL;] in [pop_front]: [T] is initialisable from [NULL]. *)
Class FromNULL (T : Type) := null : T.

(** [list<T>::remove] compares with [operator==]; no law is assumed of it. *)
Class EqualityComparable (T : Type) := equal_to : T -> T -> bool.

#[export] Instance Z_FromNULL : FromNULL Z := 0%Z.
#[export] Instance Z_EqualityComparable : EqualityComparable Z := Z.eqb.

(** ** The object *)

(** [safelist_mutex] is of type PTHREAD_MUTEX_RECURSIVE (see [MutexInit]):
    its state, as far as the calling thread is concerned, is the number of
    times that thread currently holds it. *)
Record SafeList (T : Type) : Type := mkSafeList {
  items : list T;
  safelist_mutex : nat
}.

Arguments mkSafeList {T} _ _.

(** What the calling thread does to the object, in program order. *)
Inductive event : Type :=
| Acquire   (* pthread_mutex_lock returned 0 *)
| Release   (* pthread_mutex_unlock returned 0 *)
| Read      (* a non-modifying call on the inherited list<T> *)
| Write.    (* a modifying call on the inherited list<T> *)

(** A [list<T>::iterator] is the position of the node it designates;
    [end()] is the position one past the last node.  An iterator that a
    caller holds stays on its node: when a node is linked before that
    node, the position the caller holds moves on (see [after_insert]). *)
Definition iterator := nat.

(** ** The monad: state, emitted events, undefined behaviour *)

Inductive outcome (T A : Type) : Type :=
| Done (a : A) (s : SafeList T) (tr : list event)
| Undefined      (* the C++ execution has undefined behaviour *)
| Unfinished.    (* the loop bound of the model was exhausted *)

Arguments Done {T A} _ _ _.
Arguments Undefined {T A}.
Arguments Unfinished {T A}.

Definition M (T A : Type) : Type := SafeList T -> outcome T A.

Definition ret {T A} (a : A) : M T A := fun s => Done a s [].

Definition bind {T A B} (m : M T A) (f : A -> M T B) : M T B :=
  fun s =>
    match m s with
    | Done a s1 t1 =>
        match f a s1 with
        | Done b s2 t2 => Done b s2 (t1 ++ t2)
        | Undefined => Undefined
        | Unfinished => Unfinished
        end
    | Undefined => Undefined
    | Unfinished => Unfinished
    end.

Declare Scope safelist_scope.
Delimit Scope safelist_scope with safelist.
Notation "x <- m ;; k" := (bind m (fun x => k))
  (at level 100, m at next level, right associativity) : safelist_scope.
Notation "m ;; k" := (bind m (fun _ => k))
  (at level 100, right associativity) : safelist_scope.
Open Scope safelist_scope.

Definition returned {T A} (o : outcome T A) : option A :=
  match o with Done a _ _ => Some a | _ => None end.

Definition final {T A} (o : outcome T A) : option (SafeList T) :=
  match o with Done _ s _ => Some s | _ => None end.

Definition emitted {T A} (o : outcome T A) : option (list event) :=
  match o with Done _ _ tr => Some tr | _ => None end.

(** ** The inherited std::list<T> members that SafeList calls *)

Section StdList.
Context {T : Type}.

Definition list_empty : M T bool :=
  fun s => Done (match items s with [] => true | _ :: _ => false end) s [Read].

Definition list_size : M T nat :=
  fun s => Done (length (items s)) s [Read].

Definition list_begin : M T iterator :=
  fun s => Done 0 s [Read].

Definition list_end : M T iterator :=
  fun s => Done (length (items s)) s [Read].

(** [*itr]; dereferencing [end()] or a stale iterator is undefined. *)
Definition deref (itr : iterator) : M T T :=
  fun s =>
    match nth_error (items s) itr with
    | Some x => Done x s [Read]
    | None => Undefined
    end.

Definition list_push_back (arg : T) : M T unit :=
  fun s => Done tt (mkSafeList (items s ++ [arg]) (safelist_mutex s)) [Write].

(** [erase(itr)] unlinks the designated node and returns the iterator
    following it, which is the same position in the shortened list. *)
Definition list_erase (itr : iterator) : M T iterator :=
  fun s =>
    if itr <? length (items s)
    then Done itr
           (mkSafeList (firstn itr (items s) ++ skipn (S itr) (items s))
                       (safelist_mutex s))
           [Write]
    else Undefined.

(** [remove(value)]: one pass over the nodes, erasing each node whose
    element compares equal to [value]. *)
Fixpoint erase_equal `{EqualityComparable T} (value : T) (l : list T) : list T :=
  match l with
  | [] => []
  | x :: rest =>
      if equal_to x value then erase_equal value rest
      else x :: erase_equal value rest
  end.

Definition list_remove `{EqualityComparable T} (value : T) : M T unit :=
  fun s => Done tt (mkSafeList (erase_equal value (items s)) (safelist_mutex s))
                [Write].
End StdList.

(** ** SafeList<T> members *)

Section Members.
Context {T : Type}.

(** The constructor: an empty list, and [MutexInit] leaves the mutex
    unlocked. *)
Definition SafeList_ctor : SafeList T := mkSafeList [] 0.

(** [Lock]: the mutex is recursive, so the calling thread always gets it;
    a failing pthread_mutex_lock is outside the model. *)
Definition Lock : M T bool :=
  fun s => Done true (mkSafeList (items s) (S (safelist_mutex s))) [Acquire].

(** [Unlock]: pthread_mutex_unlock fails (EPERM) when the calling thread
    does not hold the mutex, and [Unlock] then returns false. *)
Definition Unlock : M T bool :=
  fun s =>
    match safelist_mutex s with
    | 0 => Done false s []
    | S n => Done true (mkSafeList (items s) n) [Release]
    end.

(** [empty() const { return list<T>::empty(); }] *)
Definition empty : M T bool := list_empty.

(** The private, locking [begin()]. *)
Definition begin : M T iterator :=
  Lock ;;
  my_itr <- list_begin ;;
  Unlock ;;
  ret my_itr.

Definition pop_front `{FromNULL T} : M T T :=
  let ret_val := null in
  Lock ;;
  e <- empty ;;
  ret_val <- (if negb e
              then itr <- begin ;;
                   x <- deref itr ;;
                   list_erase itr ;;
                   ret x
              else ret ret_val) ;;
  Unlock ;;
  ret ret_val.

Definition push_back (arg : T) : M T unit :=
  Lock ;;
  list_push_back arg ;;
  Unlock ;;
  ret tt.

Definition size : M T nat :=
  Lock ;;
  sz <- list_size ;;
  Unlock ;;
  ret sz.

Definition remove `{EqualityComparable T} (t : T) : M T unit :=
  Lock ;;
  list_remove t ;;
  Unlock ;;
  ret tt.

(** The visitor is a [std::function<bool(const T&)>]: a closure that is
    handed one element by const reference and answers whether to go on.
    [V] is the state the closure captured; it has no handle on the list. *)
Definition visitor_fn (V : Type) : Type := T -> V -> bool * V.

(** The body of the [for] loop of [visit_all], from the test
    [itr != list<T>::end()] on.  [bound] limits the number of further
    iterations. *)
Fixpoint visit_loop {V} (bound : nat) (visitor : visitor_fn V)
         (itr : iterator) (v : V) : M T V :=
  e <- list_end ;;
  if itr =? e then ret v
  else
    match bound with
    | 0 => fun _ => Unfinished
    | S bound' =>
        x <- deref itr ;;
        let (go_on, v') := visitor x v in
        if go_on then visit_loop bound' visitor (S itr) v'
        else ret v'      (* break *)
    end.

(** [visit_all]: the loop runs at most once per node present on entry. *)
Definition visit_all {V} (visitor : visitor_fn V) (v : V) : M T V :=
  Lock ;;
  itr <- list_begin ;;
  v' <- (fun s => visit_loop (length (items s)) visitor itr v s) ;;
  Unlock ;;
  ret v'.
End Members.

(** ** The locking discipline, as a property of an event sequence *)

(** [guarded held tr]: replaying [tr] for a thread that holds the mutex
    [held] times at the start, every access to the list happens while the
    thread holds the mutex at least once. *)
Fixpoint guarded (held : nat) (tr : list event) : bool :=
  match tr with
  | [] => true
  | Acquire :: tr' => guarded (S held) tr'
  | Release :: tr' => guarded (pred held) tr'
  | Read :: tr' => (0 <? held) && guarded held tr'
  | Write :: tr' => (0 <? held) && guarded held tr'
  end.

Definition is_read (e : event) : bool :=
  match e with Read => true | _ => false end.

(** ** What the loop of [visit_all] computes *)

Section Visiting.
Context {T V : Type}.

(** The visitor applied along a list, front to back, until it answers
    false or the list ends. *)
Fixpoint visit_until_false (visitor : visitor_fn (T:=T) V) (l : list T) (v : V) : V :=
  match l with
  | [] => v
  | x :: rest =>
      let (go_on, v') := visitor x v in
      if go_on then visit_until_false visitor rest v' else v'
  end.
End Visiting.

(** A visitor that writes down each element it is handed and answers [p]. *)
Definition recording {T} (p : T -> bool) : visitor_fn (T:=T) (list T) :=
  fun item seen => (p item, seen ++ [item]).

(** The visitor of the spec's example: it answers false upon seeing 2. *)
Definition until_two : Z -> bool := fun x => negb (x =? 2)%Z.

(** A member function keeps the discipline when, whatever the state it is
    called in, the events it emits are [guarded] from the number of times
    the caller then holds the mutex (0 for a thread outside any member). *)
Definition lock_disciplined {T A} (m : M T A) : Prop :=
  forall s a s' tr, m s = Done a s' tr -> guarded (safelist_mutex s) tr = true.

(** C1 as stated: the result of a pop on an empty container differs from
    the result of every pop that removed an element. *)
Definition empty_pop_distinguishable (T : Type) `{FromNULL T} : Prop :=
  forall (d d' : nat) (x : T) (l : list T),
    returned (pop_front (mkSafeList [] d))
    <> returned (pop_front (mkSafeList (x :: l) d')).

(** ** The private members, and the inherited [insert] *)

Section PrivateMembers.
Context {T : Type}.

(** [list<T>::insert(itr, value)] links a new node before the designated
    one ([end()] is allowed) and returns the iterator of the new node. *)
Definition list_insert (itr : iterator) (value : T) : M T iterator :=
  fun s =>
    if itr <=? length (items s)
    then Done itr
           (mkSafeList (firstn itr (items s) ++ value :: skipn itr (items s))
                       (safelist_mutex s))
           [Write]
    else Undefined.

(** The private, locking [end()]. *)
Definition end_ : M T iterator :=
  Lock ;;
  my_itr <- list_end ;;
  Unlock ;;
  ret my_itr.

Definition insert (itr_arg : iterator) (t_arg : T) : M T bool :=
  Lock ;;
  list_insert itr_arg t_arg ;;
  Unlock ;;
  ret true.

Definition erase (itr_arg : iterator) : M T iterator :=
  Lock ;;
  my_itr <- list_erase itr_arg ;;
  Unlock ;;
  ret my_itr.
End PrivateMembers.

(** ** Callers *)

Section Callers.
Context {T : Type}.

(** A caller that pushes the values of [vs], first to last. *)
Fixpoint push_all (vs : list T) : M T unit :=
  match vs with
  | [] => ret tt
  | v :: rest => push_back v ;; push_all rest
  end.

(** A caller that pops [n] times and keeps the results in order. *)
Fixpoint pop_n `{FromNULL T} (n : nat) : M T (list T) :=
  match n with
  | 0 => ret []
  | S k => x <- pop_front ;; xs <- pop_n k ;; ret (x :: xs)
  end.

(** A visitor that never stops and accumulates with [f]. *)
Definition folding {V} (f : V -> T -> V) : visitor_fn (T:=T) V :=
  fun item acc => (true, f acc item).

(** A visitor that stops at the first element satisfying [q] and remembers
    whether it met one. *)
Definition searching (q : T -> bool) : visitor_fn (T:=T) bool :=
  fun item found => if q item then (false, true) else (true, found).
End Callers.

(** ** Properties of member functions *)

(** The call returns whatever the state, restores the number of times the
    caller holds the mutex, and its result and its effect on the list do
    not depend on that number. *)
Definition reentrant {T A} (m : M T A) : Prop :=
  forall l : list T, exists (a : A) (l' : list T),
    forall d : nat, exists tr,
      m (mkSafeList l d) = Done a (mkSafeList l' d) tr.

(** The call leaves the object as it was and makes no modifying call on
    the list. *)
Definition read_only {T A} (m : M T A) : Prop :=
  forall s a s' tr, m s = Done a s' tr -> s' = s /\ ~ In Write tr.

(** ** Visitors that hold the container, and visitors that throw *)

Section HandleVisitors.
Context {T : Type}.

(** A [std::function<bool(const T&)>] in general: the closure may have
    captured the container itself and call its public members during the
    traversal (the mutex is recursive), and it may throw.  A call is a
    computation on the object; the result [None] stands for a call that
    is left by an exception. *)
Definition handle_visitor (V : Type) : Type :=
  T -> V -> M T (option (bool * V)).

(** The loop of [visit_all] for such a visitor.  An exception leaves the
    loop at once.  Positions stay faithful as long as the visitor unlinks
    no node: [push_back] links the new node after all others. *)
Fixpoint visit_loop_with {V} (bound : nat) (visitor : handle_visitor V)
         (itr : iterator) (v : V) : M T (option V) :=
  e <- list_end ;;
  if itr =? e then ret (Some v)
  else
    match bound with
    | 0 => fun _ => Unfinished
    | S bound' =>
        x <- deref itr ;;
        r <- visitor x v ;;
        match r with
        | None => ret None      (* the exception propagates *)
        | Some (go_on, v') =>
            if go_on then visit_loop_with bound' visitor (S itr) v'
            else ret (Some v')  (* break *)
        end
    end.

(** [visit_all] has no handler and no guard object: an exception of the
    visitor passes [Unlock()] by.  The result [None] stands for a call of
    [visit_all] that is left by that exception. *)
Definition visit_all_with {V} (bound : nat) (visitor : handle_visitor V)
           (v : V) : M T (option V) :=
  Lock ;;
  itr <- list_begin ;;
  r <- visit_loop_with bound visitor itr v ;;
  match r with
  | None => ret None
  | Some v' => Unlock ;; ret (Some v')
  end.

(** A visitor with no handle on the list, as a visitor of this kind. *)
Definition plain {V} (visitor : visitor_fn (T:=T) V) : handle_visitor V :=
  fun item v => ret (Some (visitor item v)).

(** The caller contract of [visit_all]: every call of the visitor comes
    back (by return or by exception), has made no modifying call on the
    list, and the list is as before the call. *)
Definition hands_off {V} (visitor : handle_visitor V) : Prop :=
  forall x v s, exists r s' tr,
    visitor x v s = Done r s' tr /\ items s' = items s /\ ~ In Write tr.

End HandleVisitors.

(** The outcome of a call that is not left by an exception. *)
Definition lift_result {T A} (o : outcome T A) : outcome T (option A) :=
  match o with
  | Done a s tr => Done (Some a) s tr
  | Undefined => Undefined
  | Unfinished => Unfinished
  end.

(** C10 as stated: whatever the visitor, the list after [visit_all] is the
    list before it. *)
Definition every_visitor_keeps_contents (T : Type) : Prop :=
  forall V (visitor : handle_visitor (T:=T) V) (v : V) (s : SafeList T)
         bound r s' tr,
    visit_all_with bound visitor v s = Done r s' tr -> items s' = items s.

(** A visitor that captured the container and calls [push_back(99)] when
    it is handed 1. *)
Definition pushing_visitor : handle_visitor (T:=Z) unit :=
  fun item _ =>
    (if (item =? 1)%Z then push_back 99%Z else ret tt) ;;
    ret (Some (true, tt)).

(** A visitor that captured the container and calls [size()] at each
    element; it writes down what it is handed and stops upon seeing 2. *)
Definition sizing_visitor : handle_visitor (T:=Z) (list Z) :=
  fun item seen =>
    size ;;
    ret (Some (until_two item, seen ++ [item])).


(** ** Iterators held across an insertion *)

(** A held iterator stays on its node.  [insert(at, _)] links the new node
    before the node [at] designates, so that node and the ones after it
    are one position further on. *)
Definition after_insert (at_ held : iterator) : iterator :=
  if at_ <=? held then S held else held.

(** [--itr] *)
Definition prev (itr : iterator) : iterator := pred itr.

(** * Basic facts *)

Section Facts.
Context {T : Type}.
Implicit Types (s : SafeList T) (l : list T) (d : nat).

Lemma SafeList_eta s : mkSafeList (items s) (safelist_mutex s) = s.
Proof. destruct s; reflexivity. Qed.

Lemma guarded_app held t1 t2 :
  forallb is_read t1 = true ->
  guarded (S held) (t1 ++ t2) = guarded (S held) t2.
Proof.
  induction t1 as [|e t1 IH]; simpl; intros Hr; [reflexivity|].
  destruct e; simpl in Hr; try discriminate.
  now rewrite IH.
Qed.

Lemma empty_run s :
  empty s = Done (match items s with [] => true | _ :: _ => false end) s [Read].
Proof. reflexivity. Qed.

Lemma size_run s :
  size s = Done (length (items s)) s [Acquire; Read; Release].
Proof. destruct s; reflexivity. Qed.

Lemma push_back_run s (arg : T) :
  push_back arg s
  = Done tt (mkSafeList (items s ++ [arg]) (safelist_mutex s))
         [Acquire; Write; Release].
Proof. reflexivity. Qed.

Lemma pop_front_nil `{FromNULL T} d :
  pop_front (mkSafeList (@nil T) d)
  = Done null (mkSafeList [] d) [Acquire; Read; Release].
Proof. reflexivity. Qed.

Lemma pop_front_cons `{FromNULL T} (x : T) l d :
  pop_front (mkSafeList (x :: l) d)
  = Done x (mkSafeList l d)
         [Acquire; Read; Acquire; Read; Release; Read; Write; Release].
Proof. reflexivity. Qed.

Lemma remove_run `{EqualityComparable T} (t : T) s :
  remove t s
  = Done tt (mkSafeList (erase_equal t (items s)) (safelist_mutex s))
         [Acquire; Write; Release].
Proof. reflexivity. Qed.

(** [list<T>::remove] keeps exactly the elements that do not compare
    equal, in their order. *)
Lemma erase_equal_filter `{EqualityComparable T} (t : T) l :
  erase_equal t l = filter (fun x => negb (equal_to x t)) l.
Proof.
  induction l as [|x l IH]; simpl; [reflexivity|].
  destruct (equal_to x t); simpl; now rewrite IH.
Qed.

Lemma erase_equal_none_left `{EqualityComparable T} (t : T) l :
  Forall (fun x => equal_to x t = false) (erase_equal t l).
Proof.
  induction l as [|x l IH]; simpl; [constructor|].
  destruct (equal_to x t) eqn:E; [assumption|].
  constructor; assumption.
Qed.

Lemma erase_equal_no_match `{EqualityComparable T} (t : T) l :
  Forall (fun x => equal_to x t = false) l -> erase_equal t l = l.
Proof.
  induction 1 as [|x l Hx _ IH]; simpl; [reflexivity|].
  now rewrite Hx, IH.
Qed.

(** *** The traversal loop *)

Lemma visit_loop_unfold {V} bound (visitor : visitor_fn V) itr (v : V) :
  visit_loop bound visitor itr v
  = (e <- list_end ;;
     if itr =? e then ret v
     else match bound return M T V with
          | 0 => fun _ => Unfinished
          | S bound' =>
              x <- deref itr ;;
              let (go_on, v') := visitor x v in
              if go_on then visit_loop bound' visitor (S itr) v'
              else ret v'
          end).
Proof. destruct bound; reflexivity. Qed.

Lemma skipn_at l : forall itr x,
  nth_error l itr = Some x -> skipn itr l = x :: skipn (S itr) l.
Proof.
  induction l as [|y l IH]; intros [|itr] x Hx; simpl in *; try discriminate.
  - now inversion Hx.
  - now apply IH.
Qed.

(** With a bound of at least the number of nodes from [itr] on, the loop
    finishes, does not change the object, only reads the list, and leaves
    the visitor in the state [visit_until_false] gives on those nodes. *)
Lemma visit_loop_run {V} (visitor : visitor_fn V) bound :
  forall itr (v : V) s,
    itr <= length (items s) ->
    length (items s) - itr <= bound ->
    exists tr,
      visit_loop bound visitor itr v s
      = Done (visit_until_false visitor (skipn itr (items s)) v) s tr
      /\ forallb is_read tr = true.
Proof.
  induction bound as [|bound IH]; intros itr v s Hle Hb;
    rewrite visit_loop_unfold; unfold bind, list_end;
    destruct (itr =? length (items s)) eqn:E.
  - apply Nat.eqb_eq in E; subst itr. rewrite skipn_all.
    exists [Read]. split; reflexivity.
  - apply Nat.eqb_neq in E. lia.
  - apply Nat.eqb_eq in E; subst itr. rewrite skipn_all.
    exists [Read]. split; reflexivity.
  - apply Nat.eqb_neq in E.
    assert (Hlt : itr < length (items s)) by lia.
    destruct (nth_error (items s) itr) as [x|] eqn:Hx;
      [|apply nth_error_None in Hx; lia].
    rewrite (skipn_at _ _ Hx). unfold deref. rewrite Hx. simpl.
    destruct (visitor x v) as [go_on v']. destruct go_on.
    + destruct (IH (S itr) v' s) as [tr [Hrun Hr]]; [lia|lia|].
      rewrite Hrun. exists (Read :: Read :: tr). split; [reflexivity|].
      simpl. exact Hr.
    + exists [Read; Read]. split; reflexivity.
Qed.

Lemma visit_all_run {V} (visitor : visitor_fn V) (v : V) s :
  exists tr,
    visit_all visitor v s
    = Done (visit_until_false visitor (items s) v) s
           (Acquire :: Read :: tr ++ [Release])
    /\ forallb is_read tr = true.
Proof.
  destruct s as [l d].
  destruct (@visit_loop_run V visitor (length l) 0 v (mkSafeList l (S d)))
    as [tr [Hrun Hr]]; simpl; [lia|lia|].
  simpl in Hrun. exists tr. split; [|exact Hr].
  unfold visit_all, bind. simpl. rewrite Hrun. reflexivity.
Qed.

Lemma recording_run (p : T -> bool) : forall before after seen,
  forallb p before = true ->
  (forall x, hd_error after = Some x -> p x = false) ->
  visit_until_false (recording p) (before ++ after) seen
  = seen ++ before ++ firstn 1 after.
Proof.
  induction before as [|y before IH]; intros after seen Hb Ha; simpl.
  - destruct after as [|x after]; simpl.
    + now rewrite app_nil_r.
    + now rewrite (Ha x eq_refl).
  - simpl in Hb. apply andb_true_iff in Hb as [Hy Hb].
    rewrite Hy, IH by assumption. now rewrite <- app_assoc.
Qed.
End Facts.

(** * The locking discipline of the member functions *)

Section Discipline.
Context {T : Type}.

Local Ltac by_run E :=
  intros s a s' tr Hrun; rewrite E in Hrun; inversion Hrun; subst; reflexivity.

Lemma size_disciplined : lock_disciplined (@size T).
Proof. by_run (@size_run T). Qed.

Lemma push_back_disciplined (arg : T) : lock_disciplined (push_back arg).
Proof. by_run (@push_back_run T). Qed.

Lemma remove_disciplined `{EqualityComparable T} (t : T) :
  lock_disciplined (remove t).
Proof. by_run (remove_run t). Qed.

Lemma pop_front_disciplined `{FromNULL T} : lock_disciplined (@pop_front T _).
Proof.
  intros [[|x l] d] a s' tr Hrun;
    [rewrite pop_front_nil in Hrun | rewrite pop_front_cons in Hrun];
    inversion Hrun; subst; reflexivity.
Qed.

Lemma visit_all_disciplined {V} (visitor : visitor_fn (T:=T) V) (v : V) :
  lock_disciplined (visit_all visitor v).
Proof.
  intros s a s' tr Hrun.
  destruct (visit_all_run visitor v s) as [tr0 [E Hr]].
  rewrite E in Hrun. inversion Hrun; subst. simpl.
  now rewrite guarded_app.
Qed.
(** [empty] is the exception: it forwards to [list<T>::empty] without
    taking the mutex. *)
Lemma empty_not_disciplined : ~ lock_disciplined (@empty T).
Proof.
  intros Hd.
  specialize (Hd (mkSafeList [] 0) true (mkSafeList [] 0) [Read] eq_refl).
  discriminate Hd.
Qed.
End Discipline.

(** * The claims *)

(** ** C1 *)

(** C1, counterexample: with [T = int], [pop_front] on the empty container
    and [pop_front] on the container holding the single element 0 both
    return 0. *)
Lemma empty_pop_not_distinguishable : ~ @empty_pop_distinguishable Z _.
Proof. intros H. apply (H 0 0 0%Z []). reflexivity. Qed.

(** C1, amended: on an empty container [pop_front] returns the value [T]
    takes from [NULL]; a pop that removes an element returns that element;
    so the two results coincide exactly when the removed element is the
    [NULL] value. *)
Theorem pop_front_empty_returns_null (T : Type) `{FromNULL T} (s : SafeList T) :
  items s = [] ->
  returned (pop_front s) = Some null
  /\ forall (x : T) (l : list T) (d : nat),
       returned (pop_front (mkSafeList (x :: l) d)) = Some x
       /\ (returned (pop_front s) = returned (pop_front (mkSafeList (x :: l) d))
           <-> x = null).
Proof.
  destruct s as [l0 d0]; intros E; simpl in E; subst l0.
  rewrite pop_front_nil. split; [reflexivity|].
  intros x l d. rewrite pop_front_cons. simpl. split; [reflexivity|].
  split; [now inversion 1 | now intros ->].
Qed.

(** C1, witness: the newly constructed [SafeList<int>]. *)
Lemma pop_front_empty_returns_null_witness :
  items (@SafeList_ctor Z) = []
  /\ returned (pop_front (@SafeList_ctor Z)) = Some 0%Z.
Proof.
  split; [reflexivity|].
  exact (proj1 (@pop_front_empty_returns_null Z _ SafeList_ctor eq_refl)).
Defined.

(** ** C2 *)

(** C2 at the failing input: [empty()] called by a thread that does not
    hold the mutex performs one access to the list and no acquisition, so
    its events are not [guarded]. *)
Theorem empty_reads_unlocked (T : Type) (l : list T) :
  emitted (empty (mkSafeList l 0)) = Some [Read]
  /\ guarded 0 [Read] = false.
Proof. split; reflexivity. Qed.

(** ** C3 *)

(** C3: [push_back] appends at the back; [pop_front] on a non-empty list
    returns the front element and leaves the tail; three pushes on a new
    container followed by three pops give the pushed values in order. *)
Theorem fifo_order (T : Type) `{FromNULL T} :
  (forall (s : SafeList T) (a : T),
     final (push_back a s)
     = Some (mkSafeList (items s ++ [a]) (safelist_mutex s)))
  /\ (forall (x : T) (l : list T) (d : nat),
        returned (pop_front (mkSafeList (x :: l) d)) = Some x
        /\ final (pop_front (mkSafeList (x :: l) d)) = Some (mkSafeList l d))
  /\ (forall a b c : T,
        returned ((push_back a ;; push_back b ;; push_back c ;;
                   x <- pop_front ;; y <- pop_front ;; z <- pop_front ;;
                   ret (x, y, z)) SafeList_ctor)
        = Some (a, b, c)).
Proof.
  split; [|split].
  - intros s a. now rewrite push_back_run.
  - intros x l d. now rewrite pop_front_cons.
  - intros a b c. reflexivity.
Qed.

(** ** C4 *)

(** C4: after [remove(v)] no element of the list compares equal to [v];
    on [1,2,1,3,1], [remove(1)] leaves [2,3]. *)
Theorem remove_deletes_every_match :
  (forall (T : Type) `(EqualityComparable T) (v : T) (s : SafeList T),
     exists s', final (remove v s) = Some s'
                /\ Forall (fun x => equal_to x v = false) (items s'))
  /\ final (remove 1%Z (mkSafeList [1; 2; 1; 3; 1]%Z 0))
     = Some (mkSafeList [2; 3]%Z 0).
Proof.
  split; [|reflexivity].
  intros T E v s. rewrite remove_run. eexists. split; [reflexivity|].
  apply erase_equal_none_left.
Qed.

(** ** C5 *)

(** C5: let the list be [before ++ after], where the visitor answers true
    on every element of [before] and [after] is empty or begins with an
    element on which it answers false.  Then the visitor is handed the
    elements of [before] in order, then that first element of [after] if
    there is one, and nothing else. *)
Theorem visit_all_stops_at_first_false (T : Type) (p : T -> bool)
        (before after : list T) (d : nat) :
  forallb p before = true ->
  (forall x, hd_error after = Some x -> p x = false) ->
  returned (visit_all (recording p) [] (mkSafeList (before ++ after) d))
  = Some (before ++ firstn 1 after).
Proof.
  intros Hb Ha.
  destruct (visit_all_run (recording p) [] (mkSafeList (before ++ after) d))
    as [tr [E _]].
  rewrite E. simpl. now rewrite recording_run.
Qed.

(** C5, witness: over [1,2,3,4] the visitor that answers false upon seeing
    2 is handed exactly 1 and 2. *)
Lemma visit_all_stops_at_first_false_witness :
  forallb until_two [1]%Z = true
  /\ (forall x, hd_error [2; 3; 4]%Z = Some x -> until_two x = false)
  /\ returned (visit_all (recording until_two) []
                         (mkSafeList ([1] ++ [2; 3; 4])%Z 0))
     = Some [1; 2]%Z.
Proof.
  assert (Hb : forallb until_two [1]%Z = true) by reflexivity.
  assert (Ha : forall x, hd_error [2; 3; 4]%Z = Some x -> until_two x = false).
  { intros x Hx. inversion Hx. reflexivity. }
  split; [exact Hb|]. split; [exact Ha|].
  exact (@visit_all_stops_at_first_false Z until_two [1]%Z [2; 3; 4]%Z 0 Hb Ha).
Defined.

(** ** C6 *)

(** C6: in every state, [empty()] returns true exactly when [size()]
    returns 0. *)
Theorem empty_iff_size_zero (T : Type) (s : SafeList T) :
  exists (b : bool) (n : nat),
    returned (empty s) = Some b
    /\ returned (size s) = Some n
    /\ (b = true <-> n = 0).
Proof.
  rewrite empty_run, size_run. simpl. do 2 eexists.
  split; [reflexivity|]. split; [reflexivity|].
  destruct (items s); simpl; split; congruence.
Qed.

(** ** C7 *)

(** C7: when no element compares equal to [v], [remove(v)] returns and
    leaves the object as it was. *)
Theorem remove_without_match_is_noop (T : Type) `{EqualityComparable T}
        (v : T) (s : SafeList T) :
  Forall (fun x => equal_to x v = false) (items s) ->
  returned (remove v s) = Some tt /\ final (remove v s) = Some s.
Proof.
  intros Hno. rewrite remove_run. simpl.
  rewrite erase_equal_no_match by exact Hno.
  rewrite SafeList_eta. split; reflexivity.
Qed.

(** C7, witness: [remove(5)] on [1,2,3]. *)
Lemma remove_without_match_is_noop_witness :
  Forall (fun x => equal_to x 5%Z = false) [1; 2; 3]%Z
  /\ final (remove 5%Z (mkSafeList [1; 2; 3]%Z 0))
     = Some (mkSafeList [1; 2; 3]%Z 0).
Proof.
  assert (Hno : Forall (fun x => equal_to x 5%Z = false) [1; 2; 3]%Z)
    by (repeat constructor).
  split; [exact Hno|].
  exact (proj2 (@remove_without_match_is_noop Z _ 5%Z
                  (mkSafeList [1; 2; 3]%Z 0) Hno)).
Defined.

(** ** C8 *)

(** C8: [pop_front] on an empty container leaves the object as it was and
    performs no modifying call on the list. *)
Theorem pop_front_empty_unchanged (T : Type) `{FromNULL T} (s : SafeList T) :
  items s = [] ->
  final (pop_front s) = Some s
  /\ exists tr, emitted (pop_front s) = Some tr /\ ~ In Write tr.
Proof.
  destruct s as [l d]; intros E; simpl in E; subst l.
  rewrite pop_front_nil. simpl. split; [reflexivity|].
  eexists. split; [reflexivity|].
  simpl. intros [E|[E|[E|[]]]]; discriminate.
Qed.

(** C8, witness: the newly constructed [SafeList<int>]. *)
Lemma pop_front_empty_unchanged_witness :
  items (@SafeList_ctor Z) = []
  /\ final (pop_front (@SafeList_ctor Z)) = Some SafeList_ctor.
Proof.
  split; [reflexivity|].
  exact (proj1 (@pop_front_empty_unchanged Z _ SafeList_ctor eq_refl)).
Defined.

(** ** C9 *)

(** C9: [remove(v)] leaves the original list filtered to the elements that
    do not compare equal to [v], in their original order. *)
Theorem remove_is_filter (T : Type) `{EqualityComparable T}
        (v : T) (s : SafeList T) :
  final (remove v s)
  = Some (mkSafeList (filter (fun x => negb (equal_to x v)) (items s))
                     (safelist_mutex s)).
Proof. rewrite remove_run. simpl. now rewrite erase_equal_filter. Qed.

(** ** C10 *)

(** For a visitor with no handle on the list, whatever its captured
    state: [visit_all] returns and the object after the call is the object
    before it; on an empty list the visitor is not invoked, so its state
    is returned untouched.  (C10 itself is settled below, for visitors
    that hold the container.) *)
Theorem visit_all_preserves_items (T V : Type) (visitor : visitor_fn (T:=T) V)
        (v : V) (s : SafeList T) :
  final (visit_all visitor v s) = Some s
  /\ forall d, returned (visit_all visitor v (mkSafeList [] d)) = Some v.
Proof.
  split.
  - destruct (visit_all_run visitor v s) as [tr [E _]]. now rewrite E.
  - reflexivity.
Qed.

(** * Further properties of the members *)

Section PrivateFacts.
Context {T : Type}.
Implicit Types (s : SafeList T) (l : list T) (d itr : nat).

Lemma begin_run s : begin s = Done 0 s [Acquire; Read; Release].
Proof. destruct s; reflexivity. Qed.

Lemma end_run s : end_ s = Done (length (items s)) s [Acquire; Read; Release].
Proof. destruct s; reflexivity. Qed.

Lemma insert_run itr (t : T) l d :
  itr <= length l ->
  insert itr t (mkSafeList l d)
  = Done true (mkSafeList (firstn itr l ++ t :: skipn itr l) d)
         [Acquire; Write; Release].
Proof.
  intros Hle. unfold insert, bind, Lock, list_insert. simpl.
  apply Nat.leb_le in Hle. now rewrite Hle.
Qed.

Lemma erase_run itr l d :
  itr < length l ->
  erase itr (mkSafeList l d)
  = Done itr (mkSafeList (firstn itr l ++ skipn (S itr) l) d)
         [Acquire; Write; Release].
Proof.
  intros Hlt. unfold erase, bind, Lock, list_erase. simpl items.
  apply Nat.ltb_lt in Hlt. now rewrite Hlt.
Qed.

Lemma insert_Done itr (t : T) s a s' tr :
  insert itr t s = Done a s' tr ->
  itr <= length (items s) /\ tr = [Acquire; Write; Release].
Proof.
  destruct s as [l d]. unfold insert, bind, Lock, list_insert. simpl.
  destruct (itr <=? length l) eqn:E; [|discriminate].
  apply Nat.leb_le in E. intros Hrun. split; [exact E|].
  simpl in Hrun. now inversion Hrun.
Qed.

Lemma erase_Done itr s a s' tr :
  erase itr s = Done a s' tr ->
  itr < length (items s) /\ tr = [Acquire; Write; Release].
Proof.
  destruct s as [l d]. unfold erase, bind, Lock, list_erase. simpl items.
  destruct (itr <? length l) eqn:E; [|discriminate].
  apply Nat.ltb_lt in E. intros Hrun. split; [exact E|].
  simpl in Hrun. now inversion Hrun.
Qed.

(** Unlinking the node that was just linked gives the list back. *)
Lemma unlink_linked (t : T) l : forall itr,
  itr <= length l ->
  firstn itr (firstn itr l ++ t :: skipn itr l)
  ++ skipn (S itr) (firstn itr l ++ t :: skipn itr l) = l.
Proof.
  induction l as [|x l IH]; intros [|itr] Hle; simpl in *; try reflexivity.
  - lia.
  - f_equal. apply IH. lia.
Qed.

Lemma linked_length (t : T) l itr :
  length (firstn itr l ++ t :: skipn itr l) = S (length l).
Proof.
  rewrite length_app. cbn [length].
  rewrite Nat.add_succ_r, <- length_app, firstn_skipn. reflexivity.
Qed.

Lemma reads_have_no_write (tr : list event) :
  forallb is_read tr = true -> ~ In Write tr.
Proof.
  intros Hr Hin. rewrite forallb_forall in Hr.
  specialize (Hr _ Hin). discriminate.
Qed.
End PrivateFacts.

(** X1: [pop_front], [push_back], [size], [remove], [visit_all] and the
    private [begin], [end], [insert], [erase] call the inherited list only
    while the calling thread holds the mutex. *)
Theorem members_lock_disciplined (T : Type) :
  (forall `(FromNULL T), lock_disciplined (@pop_front T _))
  /\ (forall arg : T, lock_disciplined (push_back arg))
  /\ lock_disciplined (@size T)
  /\ (forall `(EqualityComparable T) (t : T), lock_disciplined (remove t))
  /\ (forall V (visitor : visitor_fn (T:=T) V) (v : V),
        lock_disciplined (visit_all visitor v))
  /\ lock_disciplined (@begin T)
  /\ lock_disciplined (@end_ T)
  /\ (forall itr (t : T), lock_disciplined (insert itr t))
  /\ (forall itr, lock_disciplined (@erase T itr)).
Proof.
  repeat split.
  - intros N. apply pop_front_disciplined.
  - apply push_back_disciplined.
  - apply size_disciplined.
  - intros E t. apply remove_disciplined.
  - intros V visitor v. apply visit_all_disciplined.
  - intros s a s' tr Hrun. rewrite begin_run in Hrun.
    inversion Hrun; subst; reflexivity.
  - intros s a s' tr Hrun. rewrite end_run in Hrun.
    inversion Hrun; subst; reflexivity.
  - intros itr t s a s' tr Hrun.
    apply insert_Done in Hrun as [_ ->]. reflexivity.
  - intros itr s a s' tr Hrun.
    apply erase_Done in Hrun as [_ ->]. reflexivity.
Qed.

(** X2: [empty], [size], [push_back], [pop_front] and [remove] return in
    every state, give the mutex back as often as they took it, and their
    result and their effect on the list do not depend on how often the
    caller already holds the mutex. *)
Theorem members_reentrant (T : Type) :
  reentrant (@empty T)
  /\ reentrant (@size T)
  /\ (forall arg : T, reentrant (push_back arg))
  /\ (forall `(FromNULL T), reentrant (@pop_front T _))
  /\ (forall `(EqualityComparable T) (t : T), reentrant (remove t)).
Proof.
  repeat split.
  - intros l. exists (match l with [] => true | _ :: _ => false end), l.
    intros d. eexists. reflexivity.
  - intros l. exists (length l), l. intros d. eexists. reflexivity.
  - intros arg l. exists tt, (l ++ [arg]). intros d. eexists. reflexivity.
  - intros N [|x l].
    + exists null, []. intros d. eexists. apply pop_front_nil.
    + exists x, l. intros d. eexists. apply pop_front_cons.
  - intros E t l. exists tt, (erase_equal t l). intros d. eexists. reflexivity.
Qed.

(** X3: [empty], [size] and the private [begin] and [end] leave the
    object as it was and make no modifying call on the list. *)
Theorem accessors_read_only (T : Type) :
  read_only (@empty T)
  /\ read_only (@size T)
  /\ read_only (@begin T)
  /\ read_only (@end_ T).
Proof.
  assert (three : ~ In Write [Acquire; Read; Release])
    by (intros [E|[E|[E|[]]]]; discriminate).
  repeat split.
  - rewrite empty_run in H. now inversion H.
  - rewrite empty_run in H. inversion H; subst.
    intros [E|[]]; discriminate.
  - rewrite size_run in H. now inversion H.
  - rewrite size_run in H. inversion H; subst. exact three.
  - rewrite begin_run in H. now inversion H.
  - rewrite begin_run in H. inversion H; subst. exact three.
  - rewrite end_run in H. now inversion H.
  - rewrite end_run in H. inversion H; subst. exact three.
Qed.

Section Composition.
Context {T : Type}.
Implicit Types (s : SafeList T) (l : list T) (d itr : nat).

Lemma bind_Done {A B} (m : M T A) (f : A -> M T B) s a s1 t1 b s2 t2 :
  m s = Done a s1 t1 -> f a s1 = Done b s2 t2 ->
  bind m f s = Done b s2 (t1 ++ t2).
Proof. intros Hm Hf. unfold bind. now rewrite Hm, Hf. Qed.

Lemma after_insert_same itr : after_insert itr itr = S itr.
Proof. unfold after_insert. now rewrite Nat.leb_refl. Qed.

(** Unlinking the node after the one just linked. *)
Lemma unlink_next (t : T) l : forall itr,
  itr < length l ->
  firstn (S itr) (firstn itr l ++ t :: skipn itr l)
  ++ skipn (S (S itr)) (firstn itr l ++ t :: skipn itr l)
  = firstn itr l ++ t :: skipn (S itr) l.
Proof.
  induction l as [|x l IH]; intros [|itr] Hlt; simpl in Hlt; try lia.
  - reflexivity.
  - cbn [firstn skipn app]. f_equal. apply IH. lia.
Qed.

Lemma erase_equal_length `{EqualityComparable T} (v : T) l :
  length l
  = length (erase_equal v l) + length (filter (fun x => equal_to x v) l).
Proof.
  induction l as [|x l IH]; simpl; [reflexivity|].
  destruct (equal_to x v); simpl; lia.
Qed.

Lemma erase_equal_twice `{EqualityComparable T} (v : T) l :
  erase_equal v (erase_equal v l) = erase_equal v l.
Proof. apply erase_equal_no_match, erase_equal_none_left. Qed.

Lemma erase_equal_swap `{EqualityComparable T} (a b : T) l :
  erase_equal a (erase_equal b l) = erase_equal b (erase_equal a l).
Proof.
  induction l as [|x l IH]; simpl; [reflexivity|].
  destruct (equal_to x b) eqn:Eb, (equal_to x a) eqn:Ea; simpl;
    rewrite ?Eb, ?Ea, IH; reflexivity.
Qed.

Lemma erase_equal_last `{EqualityComparable T} (v : T) l :
  equal_to v v = true -> erase_equal v (l ++ [v]) = erase_equal v l.
Proof.
  intros Hv. induction l as [|x l IH]; simpl.
  - now rewrite Hv.
  - now rewrite IH.
Qed.
End Composition.

(** X4: the private [begin()] and [end()] are [size()] nodes apart, and
    they are equal exactly when [empty()] returns true. *)
Theorem begin_end_span (T : Type) (s : SafeList T) :
  exists b e n,
    returned (begin s) = Some b
    /\ returned (end_ s) = Some e
    /\ returned (size s) = Some n
    /\ e = b + n
    /\ (b = e <-> returned (empty s) = Some true).
Proof.
  exists 0, (length (items s)), (length (items s)).
  rewrite begin_run, end_run, size_run, empty_run. simpl.
  repeat split; destruct (items s); simpl in *; congruence.
Qed.

(** X5: the private [insert(it, t)] followed by the private [erase(it)]
    with the same iterator.  The iterator stays on its node, so [erase]
    unlinks the node that was there before: the element at [it] is
    replaced by [t], and [erase] returns the iterator of the node after
    it.  When [it] is [end()], the second call is [erase(end())], which is
    undefined. *)
Theorem insert_then_erase_same_iterator (T : Type) (it : iterator) (t : T)
        (l : list T) (d : nat) :
  it <= length l ->
  (insert it t ;; erase (after_insert it it)) (mkSafeList l d)
  = if it <? length l
    then Done (S it)
              (mkSafeList (firstn it l ++ t :: skipn (S it) l) d)
              [Acquire; Write; Release; Acquire; Write; Release]
    else Undefined.
Proof.
  intros Hle. rewrite after_insert_same.
  pose proof (@insert_run T it t l d Hle) as Hi.
  destruct (it <? length l) eqn:E.
  - apply Nat.ltb_lt in E.
    assert (Hlt : S it < length (firstn it l ++ t :: skipn it l))
      by (rewrite linked_length; lia).
    pose proof (@erase_run T (S it) _ d Hlt) as He.
    erewrite bind_Done; [|exact Hi|exact He].
    rewrite unlink_next by exact E. reflexivity.
  - apply Nat.ltb_ge in E.
    unfold bind. rewrite Hi.
    unfold erase, bind, Lock, list_erase. cbn [items].
    rewrite linked_length.
    assert (F : (S it <? S (length l)) = false) by (apply Nat.ltb_ge; lia).
    now rewrite F.
Qed.

(** X5, witness: [insert(it, 9); erase(it)] with [it] on the second node
    of [1,2,3] leaves [1,9,3]. *)
Lemma insert_then_erase_same_iterator_witness :
  1 <= length [1; 2; 3]%Z
  /\ final ((insert 1 9%Z ;; erase (after_insert 1 1))
              (mkSafeList [1; 2; 3]%Z 0))
     = Some (mkSafeList [1; 9; 3]%Z 0).
Proof.
  assert (Hle : 1 <= length [1; 2; 3]%Z) by (simpl; lia).
  split; [exact Hle|].
  rewrite (@insert_then_erase_same_iterator Z 1 9%Z [1; 2; 3]%Z 0 Hle).
  reflexivity.
Defined.

(** X6: the private [insert] at the private [end()] returns true and
    leaves the same object as [push_back]. *)
Theorem insert_at_end_is_push_back (T : Type) (t : T) (s : SafeList T) :
  returned ((e <- end_ ;; insert e t) s) = Some true
  /\ final ((e <- end_ ;; insert e t) s) = final (push_back t s).
Proof.
  destruct s as [l d].
  pose proof (@insert_run T (length l) t l d (Nat.le_refl _)) as Hi.
  erewrite bind_Done; [|apply end_run|exact Hi].
  rewrite push_back_run. simpl.
  rewrite firstn_all, skipn_all. split; reflexivity.
Qed.

(** X7: an element put in front with the private [insert] at the private
    [begin()] is the one the next [pop_front] returns, and the object is
    then as it was before the insertion. *)
Theorem insert_at_begin_then_pop_front (T : Type) `{FromNULL T} (t : T)
        (s : SafeList T) :
  returned ((b <- begin ;; insert b t ;; pop_front) s) = Some t
  /\ final ((b <- begin ;; insert b t ;; pop_front) s) = Some s.
Proof. destruct s as [l d]. split; reflexivity. Qed.

(** X8: [size()] after a [push_back] is one more than before it. *)
Theorem size_after_push_back (T : Type) (a : T) (s : SafeList T) :
  exists n,
    returned ((n0 <- size ;; push_back a ;; n1 <- size ;; ret (n0, n1)) s)
    = Some (n, S n).
Proof.
  destruct s as [l d]. exists (length l).
  unfold bind. simpl. now rewrite length_app, Nat.add_1_r.
Qed.

(** X9: [size()] after a [pop_front] is one less than before it, and stays
    0 when the list was empty. *)
Theorem size_after_pop_front (T : Type) `{FromNULL T} (s : SafeList T) :
  exists n,
    returned ((n0 <- size ;; pop_front ;; n1 <- size ;; ret (n0, n1)) s)
    = Some (n, pred n).
Proof.
  destruct s as [[|x l] d].
  - exists 0. reflexivity.
  - exists (S (length l)). reflexivity.
Qed.

(** X10: [size()] drops under [remove(v)] by the number of elements that
    compare equal to [v]. *)
Theorem size_after_remove (T : Type) `{EqualityComparable T} (v : T)
        (s : SafeList T) :
  exists n0 n1,
    returned ((n0 <- size ;; remove v ;; n1 <- size ;; ret (n0, n1)) s)
    = Some (n0, n1)
    /\ n0 = n1 + length (filter (fun x => equal_to x v) (items s)).
Proof.
  destruct s as [l d].
  exists (length l), (length (erase_equal v l)).
  split; [reflexivity|]. simpl. apply erase_equal_length.
Qed.

(** X11: a second [remove(v)] changes nothing. *)
Theorem remove_idempotent (T : Type) `{EqualityComparable T} (v : T)
        (s : SafeList T) :
  final ((remove v ;; remove v) s) = final (remove v s).
Proof.
  destruct s as [l d]. unfold bind. simpl.
  now rewrite erase_equal_twice.
Qed.

(** X12: removals of two values can be done in either order. *)
Theorem remove_commutes (T : Type) `{EqualityComparable T} (a b : T)
        (s : SafeList T) :
  final ((remove a ;; remove b) s) = final ((remove b ;; remove a) s).
Proof.
  destruct s as [l d]. unfold bind. simpl.
  now rewrite erase_equal_swap.
Qed.

(** X13: when [v == v] holds, [push_back(v)] followed by [remove(v)]
    leaves the same object as [remove(v)] alone. *)
Theorem push_back_then_remove (T : Type) `{EqualityComparable T} (v : T)
        (s : SafeList T) :
  equal_to v v = true ->
  final ((push_back v ;; remove v) s) = final (remove v s).
Proof.
  intros Hv. destruct s as [l d]. unfold bind. simpl.
  now rewrite erase_equal_last.
Qed.

(** X13, witness: [push_back(1); remove(1)] on [1,2]. *)
Lemma push_back_then_remove_witness :
  equal_to 1%Z 1%Z = true
  /\ final ((push_back 1%Z ;; remove 1%Z) (mkSafeList [1; 2]%Z 0))
     = final (remove 1%Z (mkSafeList [1; 2]%Z 0)).
Proof.
  split; [reflexivity|].
  exact (@push_back_then_remove Z _ 1%Z (mkSafeList [1; 2]%Z 0) eq_refl).
Defined.

Section CallerFacts.
Context {T : Type}.
Implicit Types (l vs : list T) (d k : nat).

Lemma push_all_run vs : forall l d,
  exists tr, push_all vs (mkSafeList l d) = Done tt (mkSafeList (l ++ vs) d) tr.
Proof.
  induction vs as [|v vs IH]; intros l d; simpl.
  - exists []. now rewrite app_nil_r.
  - destruct (IH (l ++ [v]) d) as [tr Htr].
    rewrite <- app_assoc in Htr. simpl in Htr.
    eexists. eapply bind_Done; [apply push_back_run|exact Htr].
Qed.

Lemma pop_n_empty `{FromNULL T} k : forall d,
  exists tr,
    pop_n k (mkSafeList (@nil T) d) = Done (repeat null k) (mkSafeList [] d) tr.
Proof.
  induction k as [|k IH]; intros d; simpl.
  - exists []. reflexivity.
  - destruct (IH d) as [tr Htr].
    eexists. eapply bind_Done; [apply pop_front_nil|].
    eapply bind_Done; [exact Htr|reflexivity].
Qed.

Lemma pop_n_run `{FromNULL T} l : forall k d,
  exists tr,
    pop_n (length l + k) (mkSafeList l d)
    = Done (l ++ repeat null k) (mkSafeList [] d) tr.
Proof.
  induction l as [|x l IH]; intros k d; simpl.
  - apply pop_n_empty.
  - destruct (IH k d) as [tr Htr].
    eexists. eapply bind_Done; [apply pop_front_cons|].
    eapply bind_Done; [exact Htr|reflexivity].
Qed.

Lemma folding_run {V} (f : V -> T -> V) l : forall v,
  visit_until_false (folding f) l v = fold_left f l v.
Proof. induction l as [|x l IH]; intros v; simpl; [reflexivity|apply IH]. Qed.

Lemma counting_run l : forall n, fold_left (fun m (_ : T) => S m) l n = n + length l.
Proof.
  induction l as [|x l IH]; intros n; simpl; [lia|].
  rewrite IH. lia.
Qed.

Lemma searching_run (q : T -> bool) l :
  visit_until_false (searching q) l false = existsb q l.
Proof.
  induction l as [|x l IH]; simpl; [reflexivity|].
  unfold searching at 1. destruct (q x); [reflexivity|exact IH].
Qed.
End CallerFacts.

(** X14: a caller that pushes the values [vs] onto a container holding [l]
    and then pops gets the elements of [l], then those of [vs], each in
    order; the container is then empty, and every further pop returns the
    [NULL] value. *)
Theorem fifo_drain (T : Type) `{FromNULL T} (l vs : list T) (k d : nat) :
  returned ((push_all vs ;; pop_n (length l + length vs + k)) (mkSafeList l d))
  = Some (l ++ vs ++ repeat null k)
  /\ final ((push_all vs ;; pop_n (length l + length vs + k)) (mkSafeList l d))
     = Some (mkSafeList [] d).
Proof.
  destruct (push_all_run vs l d) as [t1 H1].
  destruct (pop_n_run (l ++ vs) k d) as [t2 H2].
  rewrite length_app, <- app_assoc in H2.
  erewrite bind_Done; [|exact H1|exact H2].
  split; reflexivity.
Qed.

(** X15: with a visitor that never answers false, [visit_all] is a left
    fold over the list; counting the visits gives what [size()] returns. *)
Theorem visit_all_is_fold (T V : Type) (f : V -> T -> V) (v : V)
        (s : SafeList T) :
  returned (visit_all (folding f) v s) = Some (fold_left f (items s) v)
  /\ returned (visit_all (folding (fun n (_ : T) => S n)) 0 s)
     = returned (size s).
Proof.
  split.
  - destruct (visit_all_run (folding f) v s) as [tr [E _]].
    rewrite E. simpl. now rewrite folding_run.
  - destruct (visit_all_run (folding (fun n (_ : T) => S n)) 0 s)
      as [tr [E _]].
    rewrite E, size_run. simpl. now rewrite folding_run, counting_run.
Qed.

(** X16: a visitor that stops at the first element satisfying [q] reports
    a match exactly when the list has such an element. *)
Theorem visit_all_search (T : Type) (q : T -> bool) (s : SafeList T) :
  returned (visit_all (searching q) false s) = Some (existsb q (items s)).
Proof.
  destruct (visit_all_run (searching q) false s) as [tr [E _]].
  rewrite E. simpl. now rewrite searching_run.
Qed.

(** X17: [visit_all] takes the mutex once, before its first access to the
    list, and gives it back once, after its last; in between it only
    reads, whether the traversal ends at the last node or at a false
    answer. *)
Theorem visit_all_one_critical_section (T V : Type)
        (visitor : visitor_fn (T:=T) V) (v : V) (s : SafeList T) :
  exists tr,
    emitted (visit_all visitor v s) = Some (Acquire :: tr ++ [Release])
    /\ forallb is_read tr = true.
Proof.
  destruct (visit_all_run visitor v s) as [tr [E Hr]].
  exists (Read :: tr). rewrite E. split; [reflexivity|exact Hr].
Qed.

(** * Visitors that hold the container *)

Section HandleFacts.
Context {T V : Type}.
Implicit Types (visitor : handle_visitor (T:=T) V) (s : SafeList T).

Lemma visit_loop_with_unfold bound visitor itr (v : V) :
  visit_loop_with bound visitor itr v
  = (e <- list_end ;;
     if itr =? e then ret (Some v)
     else match bound return M T (option V) with
          | 0 => fun _ => Unfinished
          | S bound' =>
              x <- deref itr ;;
              r <- visitor x v ;;
              match r with
              | None => ret None
              | Some (go_on, v') =>
                  if go_on then visit_loop_with bound' visitor (S itr) v'
                  else ret (Some v')
              end
          end).
Proof. destruct bound; reflexivity. Qed.

Lemma no_write_app (t1 t2 : list event) :
  ~ In Write t1 -> ~ In Write t2 -> ~ In Write (t1 ++ t2).
Proof. intros H1 H2 F. apply in_app_or in F as [F|F]; tauto. Qed.

Lemma no_write_cons (e : event) (t : list event) :
  e <> Write -> ~ In Write t -> ~ In Write (e :: t).
Proof. intros He Ht [F|F]; [now apply He|now apply Ht]. Qed.

(** One iteration, from the loop test on, for a visitor whose call at
    this element gives [r], [s1], [t1]. *)
Lemma visit_loop_with_step bound visitor itr (v : V) s x r s1 t1 :
  itr < length (items s) ->
  nth_error (items s) itr = Some x ->
  visitor x v s = Done r s1 t1 ->
  visit_loop_with (S bound) visitor itr v s
  = match r with
    | None => Done None s1 (Read :: Read :: t1 ++ [])
    | Some (true, v') =>
        match visit_loop_with bound visitor (S itr) v' s1 with
        | Done r' s' tr => Done r' s' (Read :: Read :: t1 ++ tr)
        | Undefined => Undefined
        | Unfinished => Unfinished
        end
    | Some (false, v') => Done (Some v') s1 (Read :: Read :: t1 ++ [])
    end.
Proof.
  intros Hlt Hx Hv. rewrite visit_loop_with_unfold.
  unfold bind, list_end, deref.
  assert (E : (itr =? length (items s)) = false) by (apply Nat.eqb_neq; lia).
  rewrite E, Hx, Hv.
  destruct r as [[[|] v']|]; try reflexivity.
  destruct (visit_loop_with bound visitor (S itr) v' s1); reflexivity.
Qed.

Lemma visit_loop_with_end bound visitor (v : V) s :
  visit_loop_with bound visitor (length (items s)) v s
  = Done (Some v) s [Read].
Proof.
  rewrite visit_loop_with_unfold. unfold bind, list_end.
  now rewrite Nat.eqb_refl.
Qed.

(** Under the caller contract the loop ends within one iteration per node,
    by exhaustion, by a false answer or by an exception, and the list is
    untouched. *)
Lemma visit_loop_with_hands_off visitor bound :
  hands_off visitor ->
  forall itr (v : V) s,
    itr <= length (items s) ->
    length (items s) - itr <= bound ->
    exists r s' tr,
      visit_loop_with bound visitor itr v s = Done r s' tr
      /\ items s' = items s /\ ~ In Write tr.
Proof.
  intros Hc. induction bound as [|bound IH]; intros itr v s Hle Hb.
  - assert (itr = length (items s)) by lia. subst itr.
    rewrite visit_loop_with_end. do 3 eexists. split; [reflexivity|].
    split; [reflexivity|]. apply no_write_cons; [discriminate|intros []].
  - destruct (Nat.eq_dec itr (length (items s))) as [->|Hne].
    + rewrite visit_loop_with_end. do 3 eexists. split; [reflexivity|].
      split; [reflexivity|]. apply no_write_cons; [discriminate|intros []].
    + assert (Hlt : itr < length (items s)) by lia.
      destruct (nth_error (items s) itr) as [x|] eqn:Hx;
        [|apply nth_error_None in Hx; lia].
      destruct (Hc x v s) as (r & s1 & t1 & Hv & Hi & Hw).
      rewrite (@visit_loop_with_step bound visitor itr v s x r _ t1 Hlt Hx Hv).
      assert (Hrr : forall t, ~ In Write t -> ~ In Write (Read :: Read :: t1 ++ t)).
      { intros t Ht. do 2 (apply no_write_cons; [discriminate|]).
        now apply no_write_app. }
      destruct r as [[[|] v']|].
      * destruct (IH (S itr) v' s1) as (r' & s' & tr & Hrun & Hi' & Hw');
          [rewrite Hi; lia|rewrite Hi; lia|].
        rewrite Hrun. do 3 eexists. split; [reflexivity|].
        split; [congruence|]. now apply Hrr.
      * do 3 eexists. split; [reflexivity|]. split; [exact Hi|].
        apply Hrr. intros [].
      * do 3 eexists. split; [reflexivity|]. split; [exact Hi|].
        apply Hrr. intros [].
Qed.


(** A visitor with no handle on the list: the general loop does what
    [visit_loop] does. *)
Lemma visit_loop_with_plain (visitor0 : visitor_fn (T:=T) V) bound :
  forall itr (v : V) s,
    visit_loop_with bound (plain visitor0) itr v s
    = lift_result (visit_loop bound visitor0 itr v s).
Proof.
  induction bound as [|bound IH]; intros itr v s;
    rewrite visit_loop_with_unfold, visit_loop_unfold;
    unfold bind, list_end;
    destruct (itr =? length (items s)); try reflexivity.
  unfold deref. destruct (nth_error (items s) itr) as [x|]; [|reflexivity].
  unfold plain at 1, ret at 1.
  destruct (visitor0 x v) as [[|] v']; [|reflexivity].
  rewrite IH.
  destruct (visit_loop bound visitor0 (S itr) v' s); reflexivity.
Qed.

Lemma visit_all_with_plain (visitor0 : visitor_fn (T:=T) V) (v : V) s :
  visit_all_with (length (items s)) (plain visitor0) v s
  = lift_result (visit_all visitor0 v s).
Proof.
  destruct s as [l d]. unfold visit_all_with, visit_all, bind.
  cbn [Lock list_begin items safelist_mutex].
  rewrite visit_loop_with_plain.
  destruct (visit_loop (length l) visitor0 0 v (mkSafeList l (S d)))
    as [a s1 t1| |]; try reflexivity.
  cbn [lift_result]. unfold Unlock, ret.
  destruct (safelist_mutex s1); reflexivity.
Qed.
End HandleFacts.

(** ** C10 *)

(** C10, counterexample: over [1,2], a visitor that captured the container
    and calls [push_back(99)] when it is handed 1 leaves [1,2,99]. *)
Lemma visitor_can_change_contents : ~ every_visitor_keeps_contents Z.
Proof.
  intros H.
  specialize (H unit pushing_visitor tt (mkSafeList [1; 2]%Z 0) 3 _ _ _ eq_refl).
  vm_compute in H. discriminate H.
Qed.

(** C10, amended: for every visitor that keeps the caller contract (each
    of its calls comes back, by return or by exception, without a
    modifying call on the list), whatever it answers and wherever it
    stops, [visit_all] comes back, has made no modifying call on the list,
    and the list after the call is the list before it; on an empty list
    the visitor is not invoked. *)
Theorem visit_all_keeps_contents_under_contract (T V : Type)
        (visitor : handle_visitor (T:=T) V) (v : V) (s : SafeList T)
        (bound : nat) :
  hands_off visitor ->
  length (items s) <= bound ->
  (exists r s' tr,
     visit_all_with bound visitor v s = Done r s' tr
     /\ items s' = items s /\ ~ In Write tr)
  /\ forall d, returned (visit_all_with bound visitor v (mkSafeList [] d))
               = Some (Some v).
Proof.
  intros Hc Hb. split.
  - destruct s as [l d]. cbn [items] in Hb.
    destruct (@visit_loop_with_hands_off T V visitor bound Hc 0 v
                (mkSafeList l (S d)))
      as (r & s1 & t1 & Hrun & Hi & Hw); [simpl; lia|simpl; lia|].
    unfold visit_all_with, bind. cbn [Lock list_begin items safelist_mutex].
    rewrite Hrun. cbn [items] in Hi.
    destruct r as [v'|]; [unfold Unlock, ret; destruct (safelist_mutex s1)|];
      do 3 eexists; (split; [reflexivity|]); (split; [exact Hi|]);
      repeat first [ apply no_write_cons; [discriminate|]
                   | apply no_write_app
                   | exact Hw
                   | intros [] ].
  - intros d. unfold visit_all_with, bind.
    cbn [Lock list_begin items safelist_mutex].
    pose proof (visit_loop_with_end bound visitor v (mkSafeList [] (S d)))
      as He.
    cbn [items length] in He. rewrite He. reflexivity.
Qed.

(** C10, witness: over [1,2,3,4], a visitor that captured the container
    and calls [size()] at each element, and stops upon seeing 2. *)
Lemma visit_all_keeps_contents_under_contract_witness :
  hands_off sizing_visitor
  /\ length (items (mkSafeList [1; 2; 3; 4]%Z 0)) <= 4
  /\ exists r s' tr,
       visit_all_with 4 sizing_visitor [] (mkSafeList [1; 2; 3; 4]%Z 0)
       = Done r s' tr
       /\ items s' = items (mkSafeList [1; 2; 3; 4]%Z 0)
       /\ ~ In Write tr.
Proof.
  assert (Hc : hands_off sizing_visitor).
  { intros x v [l d].
    exists (Some (until_two x, v ++ [x])), (mkSafeList l d),
           [Acquire; Read; Release].
    split; [reflexivity|]. split; [reflexivity|].
    intros [F|[F|[F|[]]]]; discriminate. }
  assert (Hb : length (items (mkSafeList [1; 2; 3; 4]%Z 0)) <= 4)
    by (simpl; lia).
  split; [exact Hc|]. split; [exact Hb|].
  exact (proj1 (@visit_all_keeps_contents_under_contract Z (list Z)
                  sizing_visitor [] (mkSafeList [1; 2; 3; 4]%Z 0) 4 Hc Hb)).
Defined.

(** ** Further properties *)



(** X19: after the private [insert(it, t)], [--it] designates the node
    just linked; the private [erase] of that node leaves the object as it
    was before the insertion and returns the iterator of the node after
    it, which is [it]. *)
Theorem insert_then_erase_inserted_node (T : Type) (it : iterator) (t : T)
        (s : SafeList T) :
  it <= length (items s) ->
  returned ((insert it t ;; erase (prev (after_insert it it))) s) = Some it
  /\ final ((insert it t ;; erase (prev (after_insert it it))) s) = Some s.
Proof.
  destruct s as [l d]. cbn [items]. intros Hle.
  rewrite after_insert_same. cbn [prev pred].
  assert (Hlt : it < length (firstn it l ++ t :: skipn it l))
    by (rewrite linked_length; lia).
  pose proof (@insert_run T it t l d Hle) as Hi.
  pose proof (@erase_run T it _ d Hlt) as He.
  erewrite bind_Done; [|exact Hi|exact He].
  cbn [returned final]. rewrite unlink_linked by exact Hle.
  split; reflexivity.
Qed.

(** X19, witness: inserting 9 at [end()] of [1,2,3] and erasing it. *)
Lemma insert_then_erase_inserted_node_witness :
  3 <= length (items (mkSafeList [1; 2; 3]%Z 0))
  /\ final ((insert 3 9%Z ;; erase (prev (after_insert 3 3)))
              (mkSafeList [1; 2; 3]%Z 0))
     = Some (mkSafeList [1; 2; 3]%Z 0).
Proof.
  assert (Hle : 3 <= length (items (mkSafeList [1; 2; 3]%Z 0)))
    by (simpl; lia).
  split; [exact Hle|].
  exact (proj2 (@insert_then_erase_inserted_node Z 3 9%Z
                  (mkSafeList [1; 2; 3]%Z 0) Hle)).
Defined.
